(** * asyncTutorial.ipynb: blocking versus cooperative iteration

    A shallow embedding of the notebook's two code cells and the facts about
    them.  Cell 2 squares [range(N)] one unit at a time behind a blocking
    [time.sleep]; cell 3 squares the same range as [N] coroutines driven by
    an asyncio event loop and gathered with [asyncio.as_completed].  Both
    iterate under a [tqdm] progress bar.

    Conventions of the embedding:
    - Python [int] is [Z] (unbounded), [a**2] is [a ^ 2];
    - the interpreter is the notebook's, a 64-bit CPython: [len] cannot
      report more than [sys.maxsize];
    - time is a clock in milliseconds, so the literal [0.2] is [200];
      only the two sleep primitives move the clock;
    - [tqdm], [time] and [asyncio] are libraries outside the repository:
      they are modelled by their documented behaviour, named where used;
    - the event loop is the one that already exists when the cell runs
      ([nest_asyncio]): it may hold handles that are not this program's,
      and nothing is ever taken off it but by running it;
    - what Python leaves to the runtime (iteration order of a [set] of
      objects, ties between timers of equal deadline) is a [Scheduler]
      oracle, and every statement about cell 3 quantifies over it. *)

From stdpp Require Import base decidable option list list_numbers sorting
  gmultiset.

Open Scope Z_scope.

(* ================================================================== *)
(** ** Data *)

(** A coroutine object of an [async def] whose only suspension point is
    [await asyncio.sleep(delay)]: either it has returned, or it is about to
    sleep and then go on as [k]. *)
Inductive Coro (A : Type) : Type :=
  | Return (v : A)
  | AwaitSleep (delay : Z) (k : Coro A).
Arguments Return {A} v.
Arguments AwaitSleep {A} delay k.

(** A task of the event loop: a coroutine wrapped by [ensure_future].
    [name] is its position in the list handed to [as_completed].
    [watcher] is its done callback, if it has the one [as_completed]
    installs: the identity of the completion queue that
    [_on_completion] puts the finished task on. *)
Record Task : Type := mkTask {
  name : nat;
  watcher : option nat;
  coro : Coro Z
}.

(** A finished task as it sits on the completion queue. *)
Record Future : Type := mkFuture { unit_of : nat; result : Z }.

(** The progress bar: [n] units completed out of [total]. *)
Record Bar : Type := mkBar { n : Z; total : Z }.

(** What the bar draws: the fraction [n/total] with its percentage, or the
    bare count ([n] followed by [it]) when it has no usable total. *)
Inductive Display : Type :=
  | Fraction (completed out_of : Z)
  | Count (completed : Z).

(** Everything the two cells read or write.
    - [clock]: the monotonic clock, in ms ([time.sleep] and [loop.time()]);
    - [bar], [shown]: the live progress bar and, each with the time it was
      reached, the successive states its counter has gone through (tqdm
      redraws a throttled subsequence of them on stderr);
    - [ready], [scheduled]: the event loop's FIFO of runnable handles and
      its timer heap (deadline, task);
    - [queue], [done]: the completion queue made by the latest
      [as_completed], its identity and its content. *)
Record World : Type := mkWorld {
  clock : Z;
  bar : Bar;
  shown : list (Z * Bar);
  ready : list Task;
  scheduled : list (Z * Task);
  done : list Future;
  queue : nat
}.

Definition set_clock (t : Z) (w : World) : World :=
  mkWorld t (bar w) (shown w) (ready w) (scheduled w) (done w) (queue w).
Definition set_bar (b : Bar) (w : World) : World :=
  mkWorld (clock w) b (shown w ++ [(clock w, b)]) (ready w) (scheduled w)
          (done w) (queue w).
Definition set_ready (r : list Task) (w : World) : World :=
  mkWorld (clock w) (bar w) (shown w) r (scheduled w) (done w) (queue w).
Definition set_scheduled (s : list (Z * Task)) (w : World) : World :=
  mkWorld (clock w) (bar w) (shown w) (ready w) s (done w) (queue w).
Definition set_done (d : list Future) (w : World) : World :=
  mkWorld (clock w) (bar w) (shown w) (ready w) (scheduled w) d (queue w).
Definition new_queue (q : nat) (w : World) : World :=
  mkWorld (clock w) (bar w) (shown w) (ready w) (scheduled w) [] q.

(** The runtime's free choices.  Each field maps the size of the pool still
    to be ordered to the index (modulo that size) of the element taken
    next; since the pool shrinks by one at every choice, this reaches every
    order. *)
Record Scheduler : Type := mkScheduler {
  set_pick : nat → nat;    (* iteration order of [set(fs)] *)
  heap_pick : nat → nat    (* pop order of timers with equal deadline *)
}.

(* ================================================================== *)
(** ** The monad of cell code *)

(** A computation either yields a value and a new world, or yields nothing
    ([None]): it raised, or it waits for ever on an idle event loop. *)
Definition Py (A : Type) : Type := World → option (A * World).

#[global] Instance Py_ret : MRet Py := λ A a w, Some (a, w).
#[global] Instance Py_bind : MBind Py := λ A B f m w,
  match m w with
  | Some (a, w') => f a w'
  | None => None
  end.

(* ================================================================== *)
(** ** Builtins and library behaviour *)

(** [range(stop)]: 0, 1, ..., stop-1; empty when [stop <= 0]. *)
Definition range (stop : Z) : list Z := seqZ 0 stop.

(** [sys.maxsize] of a 64-bit CPython. *)
Definition sys_maxsize : Z := 2 ^ 63 - 1.

(** [len(...)]: the length, or [OverflowError] when it does not fit
    [sys.maxsize]. *)
Definition len {A} (l : list A) : Py Z := λ w,
  if decide (Z.of_nat (length l) ≤ sys_maxsize)
  then Some (Z.of_nat (length l), w)
  else None.

(** [time.sleep(secs)]: blocks the whole process; raises [ValueError] on a
    negative length. *)
Definition time_sleep (ms : Z) : Py unit := λ w,
  if decide (ms < 0) then None else Some ((), set_clock (clock w + ms) w).

(** [tqdm(iterable, total=...)]: a new bar at 0 of [total]. *)
Definition tqdm_open (tot : Z) : Py unit := λ w,
  Some ((), set_bar (mkBar 0 tot) w).

(** tqdm's step after the loop body of one item has finished. *)
Definition tqdm_update : Py unit := λ w,
  Some ((), set_bar (mkBar (n (bar w) + 1) (total (bar w))) w).

(** [tqdm.format_meter]: a total that is 0, or that the counter has
    passed, is dropped, and without a total only the count is drawn. *)
Definition render (b : Bar) : Display :=
  if decide (total b = 0) then Count (n b)
  else if decide (total b < n b) then Count (n b)
  else Fraction (n b) (total b).

(** [[body(t) for t in tqdm(iterable, total=tot)]].  The bar is built
    first; the iterable (possibly a generator, hence a computation) starts
    when the comprehension asks for its first item; the counter moves
    after each body. *)
Definition tqdm_comprehension {A B} (iterable : Py (list A)) (tot : Z)
    (body : A → Py B) : Py (list B) :=
  tqdm_open tot;;
  items ← iterable;
  mapM (λ t, y ← body t; tqdm_update;; mret y) items.

(* ================================================================== *)
(** ** Cell 2: the sequential runner *)

(** [def foo(a): time.sleep(0.2); return a**2] *)
Definition foo (a : Z) : Py Z :=
  time_sleep 200;; mret (a ^ 2).

(** [x = [foo(i) for i in tqdm(range(N))]].  Given no total, tqdm takes
    [len(range(N))]; it guards that call against [TypeError] and
    [AttributeError] only, so an [OverflowError] ends the cell before the
    bar exists. *)
Definition sequential (N : Z) : Py (list Z) :=
  tot ← len (range N);
  tqdm_comprehension (mret (range N)) tot foo.

(* ================================================================== *)
(** ** Cell 3: coroutines and the event loop *)

(** [async def afoo(a): await asyncio.sleep(0.2); return a**2] *)
Definition afoo (a : Z) : Coro Z :=
  AwaitSleep 200 (Return (a ^ 2)).

(** An order of [pool] chosen by the runtime through [pick]: repeatedly
    take the element at index [pick (size) mod size] out of the pool. *)
Fixpoint pick_all {A} (pick : nat → nat) (fuel : nat) (pool : list A)
    : list A :=
  match fuel with
  | O => []
  | S fuel' =>
      let i := (pick (length pool) `mod` length pool)%nat in
      match pool !! i with
      | Some x => x :: pick_all pick fuel' (delete i pool)
      | None => []
      end
  end.

Definition arbitrary_order {A} (pick : nat → nat) (pool : list A) : list A :=
  pick_all pick (length pool) pool.

(** Timers leave the heap by deadline; [TimerHandle] compares deadlines
    only, so equal deadlines leave in an order the runtime chooses: the
    due timers in an arbitrary order, then sorted by deadline without
    disturbing ties. *)
Fixpoint insert_timer (e : Z * Task) (l : list (Z * Task))
    : list (Z * Task) :=
  match l with
  | [] => [e]
  | e' :: l' =>
      if decide (e.1 ≤ e'.1) then e :: l else e' :: insert_timer e l'
  end.

Definition by_deadline (l : list (Z * Task)) : list (Z * Task) :=
  foldr insert_timer [] l.

Definition heap_order (sch : Scheduler) (due : list (Z * Task))
    : list (Z * Task) :=
  by_deadline (arbitrary_order (heap_pick sch) due).

(** The nearest deadline on the timer heap. *)
Definition earliest (s : list (Z * Task)) : option Z :=
  match s with
  | [] => None
  | e :: s' => Some (foldr (λ e' m, Z.min e'.1 m) e.1 s')
  end.

(** One handle of the loop: resume a task up to its next suspension.
    - the coroutine returns: the task is finished; if its done callback is
      the [_on_completion] of the current completion queue it is put on
      [done]; a task nobody watches, or one watched through a queue that
      has been given up, just ends;
    - [await asyncio.sleep(d)] with [d <= 0] is a bare yield: the task goes
      to the back of the ready queue;
    - otherwise [loop.call_later(d, ...)]: a timer at [loop.time() + d].
    asyncio reaches each of these through further [call_soon] hops; they
    are FIFO and take no time, and are merged into the handle. *)
Definition run_handle (w : World) (t : Task) : World :=
  match coro t with
  | Return v =>
      if decide (watcher t = Some (queue w))
      then set_done (done w ++ [mkFuture (name t) v]) w
      else w
  | AwaitSleep d k =>
      if decide (d ≤ 0)
      then set_ready (ready w ++ [mkTask (name t) (watcher t) k]) w
      else set_scheduled
             (scheduled w ++ [(clock w + d, mkTask (name t) (watcher t) k)]) w
  end.

(** When the next iteration of the loop runs its handles: at once if
    something is runnable, else at the nearest deadline, never if there is
    no timer either. *)
Definition wake_time (w : World) : option Z :=
  match ready w with
  | [] => Z.max (clock w) <$> earliest (scheduled w)
  | _ :: _ => Some (clock w)
  end.

(** The handles of an iteration at time [now]: move the timers that are
    due to the ready queue, then run what is ready now, not what these
    handles make ready. *)
Definition run_at (sch : Scheduler) (now : Z) (w : World) : World :=
  let due := filter (λ e, e.1 ≤ now) (scheduled w) in
  let later := filter (λ e, ¬ e.1 ≤ now) (scheduled w) in
  let handles := ready w ++ (heap_order sch due).*2 in
  foldl run_handle
        (set_scheduled later (set_ready [] (set_clock now w))) handles.

(** One iteration of the loop ([BaseEventLoop._run_once]). *)
Definition run_once (sch : Scheduler) (w : World) : option World :=
  now ← wake_time w; Some (run_at sch now w).

(** Work left on the loop: an upper bound on the iterations that can still
    run a handle. *)
Fixpoint coro_size {A} (c : Coro A) : nat :=
  match c with
  | Return _ => 1
  | AwaitSleep _ k => S (coro_size k)
  end.

Definition task_size (t : Task) : nat := coro_size (coro t).

Definition pending_work (w : World) : nat :=
  (sum_list_with task_size (ready w)
   + sum_list_with (λ e, task_size e.2) (scheduled w))%nat.

(** [_wait_for_one]: [f = await done.get(); return f.result()].  While the
    queue is empty the caller is suspended and the loop iterates. *)
Fixpoint wait_for_one (fuel : nat) (sch : Scheduler) (w : World)
    : option (Z * World) :=
  match done w with
  | f :: q => Some (result f, set_done q w)
  | [] =>
      match fuel with
      | O => None
      | S fuel' => w' ← run_once sch w; wait_for_one fuel' sch w'
      end
  end.

Definition await_one (sch : Scheduler) : Py Z := λ w,
  wait_for_one (pending_work w) sch w.

(** The identity of a queue object made now: one that no task on the loop
    reports to and that differs from the current queue's. *)
Definition fresh_queue (w : World) : nat :=
  S (max_list (queue w :: omap watcher (ready w ++ (scheduled w).*2))).

(** [asyncio.as_completed(fs)], a generator: on its first [next] it makes a
    new [done] queue and wraps every coroutine of [set(fs)] in a task
    scheduled on the loop and watched through that queue, then yields one
    [_wait_for_one()] per task. *)
Definition as_completed (sch : Scheduler) (fs : list (Coro Z))
    : Py (list (Py Z)) := λ w,
  let q := fresh_queue w in
  let todo :=
    arbitrary_order (set_pick sch) (imap (λ i c, mkTask i (Some q) c) fs) in
  Some (replicate (length todo) (await_one sch),
        set_ready (ready w ++ todo) (new_queue q w)).

(** [async def do1()]:
    [tasks = list(map(afoo, range(N)))]
    [return [await t for t in tqdm(asyncio.as_completed(tasks), total=N)]] *)
Definition do1 (sch : Scheduler) (N : Z) : Py (list Z) :=
  let tasks := afoo <$> range N in
  tqdm_comprehension (as_completed sch tasks) N (λ t, t).

(** [asyncio.run(main)] under [nest_asyncio]: [run_until_complete] on the
    loop that is already there, iterated until [main] is done.  Nothing is
    taken off the loop.  The steps of [main] are taken in place, not queued
    as a handle among the others, and the loop is iterated where [main] has
    to wait ([await_one]).  This fixes the result, the clock and the bar
    of the run; of the handles that are not the program's it fixes which
    have been run by the end only as far as [main] waited for them. *)
Definition asyncio_run {A} (main : Py A) : Py A := main.

(** [x = asyncio.run(do1())] *)
Definition concurrent (sch : Scheduler) (N : Z) : Py (list Z) :=
  asyncio_run (do1 sch N).

(* ================================================================== *)
(** ** The notebook's configuration *)

Module Notebook.

(** [N = 50] *)
Definition N : Z := 50.

Definition cell2 : Py (list Z) := sequential N.

Definition cell3 (sch : Scheduler) : Py (list Z) := concurrent sch N.

End Notebook.

(* ================================================================== *)
(** ** Vocabulary of the proofs *)

(** The states a bar goes through in [k] steps taken [dt] ms apart from
    time [t], each with its time. *)
Fixpoint ticks (t dt : Z) (b : Bar) (k : nat) : list (Z * Bar) :=
  match k with
  | O => []
  | S k' =>
      let b' := mkBar (n b + 1) (total b) in
      (t + dt, b') :: ticks (t + dt) dt b' k'
  end.

(** The world after [k] units taking [dt] ms each: the clock and the bar
    [k] steps further. *)
Definition advanced (k : nat) (dt : Z) (w : World) : World :=
  mkWorld (clock w + dt * Z.of_nat k)
          (mkBar (n (bar w) + Z.of_nat k) (total (bar w)))
          (shown w ++ ticks (clock w) dt (bar w) k)
          (ready w) (scheduled w) (done w) (queue w).

(** The history of a bar counting to [N]: 0 of [N] at time [t], then
    [i] of [N] at time [t + dt * i]. *)
Definition counting (t dt N : Z) : list (Z * Bar) :=
  (λ i, (t + dt * i, mkBar i N)) <$> seqZ 0 (N + 1).

(** The history of the concurrent bar: 0 of [N] at time [t], then every
    step at the time the common delay is over. *)
Definition counting_at_once (t N : Z) : list (Z * Bar) :=
  (t, mkBar 0 N) :: ((λ i, (t + 200, mkBar i N)) <$> seqZ 1 N).

(** A unit of work as the proofs follow it: its position among the
    coroutines handed to [as_completed], and its input. *)
Definition units (N : Z) : list (nat * Z) := imap pair (range N).

(** A task reports to queue [q]. *)
Definition mine (q : nat) (t : Task) : Prop := watcher t = Some q.

#[global] Instance mine_dec q t : Decision (mine q t) :=
  decide (watcher t = Some q).

(** A loop that holds handles of the current queue only. *)
Definition own (w : World) : Prop :=
  Forall (mine (queue w)) (ready w) ∧
  Forall (λ e, mine (queue w) e.2) (scheduled w).

(** The three stages of a unit on the loop: a task not yet started, a task
    asleep until [t], a finished task on the completion queue. *)
Definition spawn (q : nat) (p : nat * Z) : Task :=
  mkTask p.1 (Some q) (afoo p.2).
Definition asleep (q : nat) (t : Z) (p : nat * Z) : Z * Task :=
  (t, mkTask p.1 (Some q) (Return (p.2 ^ 2))).
Definition finished (p : nat * Z) : Future := mkFuture p.1 (p.2 ^ 2).

(** What a handle adds to the ready queue, to the timers and to the
    completion queue [q]. *)
Definition to_ready (t : Task) : list Task :=
  match coro t with
  | AwaitSleep d k =>
      if decide (d ≤ 0) then [mkTask (name t) (watcher t) k] else []
  | Return _ => []
  end.

Definition to_timer (now : Z) (t : Task) : list (Z * Task) :=
  match coro t with
  | AwaitSleep d k =>
      if decide (d ≤ 0) then []
      else [(now + d, mkTask (name t) (watcher t) k)]
  | Return _ => []
  end.

Definition to_done (q : nat) (t : Task) : list Future :=
  match coro t with
  | Return v => if decide (watcher t = Some q) then [mkFuture (name t) v] else []
  | AwaitSleep _ _ => []
  end.

(** The value a coroutine returns once all its awaits are through. *)
Fixpoint returned {A} (c : Coro A) : A :=
  match c with
  | Return v => v
  | AwaitSleep _ k => returned k
  end.

(** A world to run examples in: clock at 0, nothing shown, idle loop. *)
Definition w0 : World := mkWorld 0 (mkBar 0 0) [] [] [] [] 0.

(** A world whose loop holds handles that are not the program's: a task
    about to sleep, and two timers, one of them due only after 5 s. *)
Definition w_busy : World :=
  mkWorld 1000 (mkBar 3 9) []
          [mkTask 7 None (AwaitSleep 50 (Return 1))]
          [(1100, mkTask 8 None (AwaitSleep 0 (Return 2)));
           (6000, mkTask 9 (Some 4%nat) (Return 3))]
          [mkFuture 5 25] 4.

(** Three runtimes: first come first served, last come first served, and
    one that jumps around. *)
Definition fifo : Scheduler := mkScheduler (λ _, 0%nat) (λ _, 0%nat).
Definition lifo : Scheduler := mkScheduler (λ k, Nat.pred k) (λ _, 0%nat).
Definition jumpy : Scheduler := mkScheduler (λ _, 2%nat) (λ k, S k).

(* ================================================================== *)
(** ** Reasoning about [Py] *)

Lemma Py_bind_Some {A B} (m : Py A) (f : A → Py B) w a w' :
  m w = Some (a, w') → (m ≫= f) w = f a w'.
Proof. intros Hm. unfold mbind, Py_bind. by rewrite Hm. Qed.

Lemma Py_bind_None {A B} (m : Py A) (f : A → Py B) w :
  m w = None → (m ≫= f) w = None.
Proof. intros Hm. unfold mbind, Py_bind. by rewrite Hm. Qed.

Lemma mapM_Py_nil {A B} (f : A → Py B) w : mapM f [] w = Some ([], w).
Proof. done. Qed.

Lemma mapM_Py_cons {A B} (f : A → Py B) x l w y w1 ys w2 :
  f x w = Some (y, w1) →
  mapM f l w1 = Some (ys, w2) →
  mapM f (x :: l) w = Some (y :: ys, w2).
Proof.
  intros Hx Hl.
  change (mapM f (x :: l)) with (y' ← f x; k ← mapM f l; mret (y' :: k)).
  rewrite (Py_bind_Some _ _ _ _ _ Hx), (Py_bind_Some _ _ _ _ _ Hl). done.
Qed.

Lemma mapM_Py_first {A B} (f : A → Py B) x l w w' :
  f x w = f x w' → mapM f (x :: l) w = mapM f (x :: l) w'.
Proof.
  intros Hx.
  change (mapM f (x :: l)) with (y' ← f x; k ← mapM f l; mret (y' :: k)).
  unfold mbind at 1 3, Py_bind. by rewrite Hx.
Qed.

(** The body of a comprehension under tqdm: the item's body, then one step
    of the bar. *)
Lemma tqdm_body_Some {A B} (body : A → Py B) t w y w1 :
  body t w = Some (y, w1) →
  (y' ← body t; tqdm_update;; mret y') w
  = Some (y, set_bar (mkBar (n (bar w1) + 1) (total (bar w1))) w1).
Proof. intros Hb. by rewrite (Py_bind_Some _ _ _ _ _ Hb). Qed.

(* ================================================================== *)
(** ** The progress bar over a run *)

Lemma ticks_closed t dt b k :
  ticks t dt b k
  = (λ i, (t + dt * i, mkBar (n b + i) (total b))) <$> seqZ 1 (Z.of_nat k).
Proof.
  revert t b. induction k as [|k IH]; intros t b; [done|].
  rewrite seqZ_cons by lia. cbn [ticks fmap list_fmap]. f_equal.
  { f_equal. lia. }
  rewrite IH. cbn [n total].
  replace (Z.pred (Z.of_nat (S k))) with (Z.of_nat k) by lia.
  replace (Z.succ 1) with (1 + 1) by lia.
  rewrite <-(fmap_add_seqZ 1 1), <-list_fmap_compose.
  apply list_fmap_ext. intros _ i _. cbn. f_equal; [lia|]. f_equal. lia.
Qed.

Lemma advanced_0 dt w : advanced 0 dt w = w.
Proof.
  destruct w as [c [bn bt] s r sc d q]. unfold advanced; cbn.
  rewrite Z.mul_0_r, !Z.add_0_r, app_nil_r. done.
Qed.

Lemma advanced_step k dt w :
  advanced k dt
    (set_bar (mkBar (n (bar w) + 1) (total (bar w)))
             (set_clock (clock w + dt) w))
  = advanced (S k) dt w.
Proof.
  unfold advanced, set_bar, set_clock;
    cbn [clock bar shown ready scheduled done queue n total ticks].
  f_equal; [lia | f_equal; lia | by rewrite <-app_assoc].
Qed.

Lemma advanced_step_still k w d :
  advanced k 0
    (set_bar (mkBar (n (bar w) + 1) (total (bar w))) (set_done d w))
  = advanced (S k) 0 (set_done d w).
Proof.
  unfold advanced, set_bar, set_done;
    cbn [clock bar shown ready scheduled done queue n total ticks].
  rewrite !Z.mul_0_l, !Z.add_0_r, <-app_assoc. cbn [app].
  f_equal. f_equal. lia.
Qed.

Lemma counting_ticks t dt N (k : nat) :
  Z.of_nat k = N →
  (t, mkBar 0 N) :: ticks t dt (mkBar 0 N) k = counting t dt N.
Proof.
  intros Hk. unfold counting. rewrite seqZ_cons by lia.
  cbn [fmap list_fmap]. f_equal; [f_equal; lia|].
  rewrite ticks_closed, Hk. cbn [n total].
  replace (Z.pred (N + 1)) with N by lia. by apply list_fmap_ext.
Qed.

Lemma counting_at_once_ticks t N (k : nat) :
  Z.of_nat k = N →
  (t, mkBar 0 N) :: ticks (t + 200) 0 (mkBar 0 N) k = counting_at_once t N.
Proof.
  intros Hk. unfold counting_at_once. f_equal.
  rewrite ticks_closed, Hk. cbn [n total].
  apply list_fmap_ext. intros _ i _. cbn. f_equal. lia.
Qed.

(* ================================================================== *)
(** ** The sequential runner, step by step *)

Lemma range_length N : length (range N) = Z.to_nat N.
Proof. apply length_seqZ. Qed.

Lemma range_len N : Z.of_nat (length (range N)) = Z.max 0 N.
Proof. rewrite range_length. lia. Qed.

Lemma range_lookup N (i : nat) :
  Z.of_nat i < N → range N !! i = Some (Z.of_nat i).
Proof. intros Hi. unfold range. by rewrite lookup_seqZ_lt. Qed.

Lemma range_nonpos N : N ≤ 0 → range N = [].
Proof. apply seqZ_nil. Qed.

Lemma len_range N w :
  N ≤ sys_maxsize → len (range N) w = Some (Z.max 0 N, w).
Proof.
  intros HN. unfold len. rewrite range_len.
  rewrite decide_True; [done|]. unfold sys_maxsize in *. lia.
Qed.

Lemma len_range_overflow N w : sys_maxsize < N → len (range N) w = None.
Proof.
  intros HN. unfold len. rewrite range_len.
  rewrite decide_False; [done|]. unfold sys_maxsize in *. lia.
Qed.

Lemma foo_spec a w : foo a w = Some (a ^ 2, set_clock (clock w + 200) w).
Proof. done. Qed.

Lemma sequential_loop l w :
  mapM (λ t, y ← foo t; tqdm_update;; mret y) l w
  = Some ((λ a, a ^ 2) <$> l, advanced (length l) 200 w).
Proof.
  revert w. induction l as [|a l IH]; intros w.
  - rewrite mapM_Py_nil, advanced_0. done.
  - eapply mapM_Py_cons.
    + apply tqdm_body_Some, foo_spec.
    + rewrite IH. cbn [fmap list_fmap]. do 2 f_equal.
      change (bar (set_clock (clock w + 200) w)) with (bar w).
      by rewrite advanced_step.
Qed.

(** Within what [len] can report, the sequential runner returns the
    squares in order, 200 ms per unit. *)
Lemma sequential_spec N w :
  N ≤ sys_maxsize →
  sequential N w
  = Some ((λ a, a ^ 2) <$> range N,
          advanced (length (range N)) 200
                   (set_bar (mkBar 0 (Z.max 0 N)) w)).
Proof.
  intros HN. unfold sequential.
  rewrite (Py_bind_Some _ _ _ _ _ (len_range N w HN)).
  unfold tqdm_comprehension.
  erewrite Py_bind_Some by reflexivity.
  erewrite Py_bind_Some by reflexivity.
  apply sequential_loop.
Qed.

(** Beyond it, the cell raises before the bar exists and before any unit
    runs. *)
Lemma sequential_overflow N w : sys_maxsize < N → sequential N w = None.
Proof.
  intros HN. unfold sequential.
  by rewrite (Py_bind_None _ _ _ (len_range_overflow N w HN)).
Qed.
(* ================================================================== *)
(** ** Orders chosen by the runtime *)

Lemma pick_all_Permutation {A} pick fuel (pool : list A) :
  length pool = fuel → pick_all pick fuel pool ≡ₚ pool.
Proof.
  revert pool. induction fuel as [|fuel IH]; intros pool Hlen.
  - by apply nil_length_inv in Hlen as ->.
  - cbn [pick_all].
    destruct (lookup_lt_is_Some_2 pool (pick (length pool) `mod` length pool)%nat)
      as [x Hx].
    { apply Nat.mod_upper_bound. lia. }
    rewrite Hx. etrans; [|symmetry; exact (delete_Permutation _ _ _ Hx)].
    apply Permutation_skip, IH. rewrite length_delete by eauto. lia.
Qed.

Lemma arbitrary_order_Permutation {A} pick (pool : list A) :
  arbitrary_order pick pool ≡ₚ pool.
Proof. by apply pick_all_Permutation. Qed.

Lemma insert_timer_Permutation e l : insert_timer e l ≡ₚ e :: l.
Proof.
  induction l as [|e' l IH]; [done|]. cbn [insert_timer].
  case_decide; [done|]. by rewrite IH, Permutation_swap.
Qed.

Lemma by_deadline_Permutation l : by_deadline l ≡ₚ l.
Proof.
  induction l as [|e l IH]; [done|]. unfold by_deadline in *. cbn [foldr].
  by rewrite insert_timer_Permutation, IH.
Qed.

Lemma heap_order_Permutation sch due : heap_order sch due ≡ₚ due.
Proof.
  unfold heap_order.
  by rewrite by_deadline_Permutation, arbitrary_order_Permutation.
Qed.

(** Every order of the pool is the choice of some runtime. *)
Lemma pick_all_ext {A} pick pick' fuel (pool : list A) :
  (∀ k, (k ≤ length pool)%nat → pick k = pick' k) →
  pick_all pick fuel pool = pick_all pick' fuel pool.
Proof.
  revert pool. induction fuel as [|fuel IH]; intros pool Hext; [done|].
  cbn [pick_all]. rewrite <-(Hext (length pool)) by done.
  destruct (pool !! _) as [x|] eqn:Hx; [|done]. f_equal.
  apply IH. intros k Hk. apply Hext.
  rewrite length_delete in Hk by eauto. lia.
Qed.


Lemma pick_all_fmap {A B} (f : A → B) pick fuel (pool : list A) :
  pick_all pick fuel (f <$> pool) = f <$> pick_all pick fuel pool.
Proof.
  revert pool. induction fuel as [|fuel IH]; intros pool; [done|].
  cbn [pick_all]. rewrite length_fmap, list_lookup_fmap.
  destruct (pool !! _) as [x|]; [|done]. cbn [fmap option_fmap option_map list_fmap].
  by rewrite <-list_fmap_delete, IH.
Qed.

Lemma arbitrary_order_fmap {A B} (f : A → B) pick (pool : list A) :
  arbitrary_order pick (f <$> pool) = f <$> arbitrary_order pick pool.
Proof. unfold arbitrary_order. by rewrite length_fmap, pick_all_fmap. Qed.

Lemma arbitrary_order_first {A} (pool : list A) :
  arbitrary_order (λ _, 0%nat) pool = pool.
Proof.
  unfold arbitrary_order. induction pool as [|x pool IH]; [done|].
  cbn [length pick_all]. rewrite Nat.Div0.mod_0_l. cbn. by rewrite IH.
Qed.

(** Timers leave in deadline order, and equal deadlines are left as the
    runtime ordered them. *)
Lemma insert_timer_Sorted e l :
  Sorted (λ e1 e2 : Z * Task, e1.1 ≤ e2.1) l →
  Sorted (λ e1 e2 : Z * Task, e1.1 ≤ e2.1) (insert_timer e l).
Proof.
  induction 1 as [|e' l Hs IH Hhd]; cbn [insert_timer].
  - by repeat constructor.
  - case_decide.
    + constructor; [by constructor|]. by constructor.
    + constructor; [done|].
      destruct Hhd as [|e'' l' Hle]; cbn [insert_timer].
      * constructor. lia.
      * case_decide; constructor; lia.
Qed.

Lemma by_deadline_Sorted l :
  Sorted (λ e1 e2 : Z * Task, e1.1 ≤ e2.1) (by_deadline l).
Proof.
  induction l as [|e l IH]; [constructor|].
  by apply insert_timer_Sorted.
Qed.

Lemma by_deadline_ties t l :
  Forall (λ e : Z * Task, e.1 = t) l → by_deadline l = l.
Proof.
  induction 1 as [|e l He Hl IH]; [done|].
  unfold by_deadline in *. cbn [foldr]. rewrite IH.
  destruct Hl as [|e' l' He' _]; [done|]. cbn [insert_timer].
  rewrite decide_True by lia. done.
Qed.


(** Sorting by deadline leaves in place, relative to each other, the
    timers that share the latest deadline among those selected. *)
Lemma insert_timer_filter (P : Z * Task → Prop) `{!∀ e, Decision (P e)} e l :
  (P e → ∀ e', e' ∈ l → P e' → e.1 ≤ e'.1) →
  filter P (insert_timer e l) = filter P (e :: l).
Proof.
  induction l as [|e' l IH]; intros Hle; [done|]. cbn [insert_timer].
  case_decide as Hd; [done|].
  rewrite filter_cons, IH.
  2:{ intros HP e'' He''. apply Hle; [done|]. by apply list_elem_of_further. }
  rewrite !filter_cons.
  destruct (decide (P e)) as [HPe|]; [|done].
  destruct (decide (P e')) as [HPe'|]; [|done].
  exfalso. apply Hd, Hle; [done| apply list_elem_of_here |done].
Qed.

Lemma by_deadline_stable (P : Z * Task → Prop) `{!∀ e, Decision (P e)} T l :
  (∀ e, e ∈ l → P e → e.1 = T) →
  filter P (by_deadline l) = filter P l.
Proof.
  induction l as [|e l IH]; intros HT; [done|].
  unfold by_deadline in *. cbn [foldr].
  rewrite insert_timer_filter.
  - rewrite !filter_cons, IH; [done|].
    intros e' He'. apply HT. by apply list_elem_of_further.
  - intros HPe e' He' HPe'.
    rewrite (HT e), (HT e'); [done| |done| apply list_elem_of_here |done].
    apply list_elem_of_further.
    by rewrite <-(by_deadline_Permutation l).
Qed.

Lemma arbitrary_order_fifo {A} pick (pool : list A) :
  (∀ k, pick k = 0%nat) → arbitrary_order pick pool = pool.
Proof.
  intros Hp. rewrite <-(arbitrary_order_first pool) at 2.
  unfold arbitrary_order. apply pick_all_ext. intros k _. apply Hp.
Qed.

Lemma filter_comm {A} (P Q : A → Prop)
    `{!∀ x, Decision (P x)} `{!∀ x, Decision (Q x)} (l : list A) :
  filter P (filter Q l) = filter Q (filter P l).
Proof.
  induction l as [|x l IH]; [done|]. rewrite !(filter_cons _ x l).
  destruct (decide (P x)), (decide (Q x)); rewrite ?filter_cons;
    repeat case_decide; try done; by rewrite IH.
Qed.

Lemma filter_snd (P : Task → Prop) `{!∀ t, Decision (P t)}
    (l : list (Z * Task)) :
  filter P l.*2 = (filter (λ e, P e.2) l).*2.
Proof.
  induction l as [|e l IH]; [done|]. cbn [fmap list_fmap].
  rewrite !filter_cons. cbn. case_decide; cbn; by rewrite IH.
Qed.

Lemma filter_all {A} (P : A → Prop) `{!∀ x, Decision (P x)} (l : list A) :
  Forall P l → filter P l = l.
Proof.
  induction 1 as [|x l Hx Hl IH]; [done|].
  by rewrite filter_cons_True, IH.
Qed.

Lemma filter_none {A} (P : A → Prop) `{!∀ x, Decision (P x)} (l : list A) :
  Forall (λ x, ¬ P x) l → filter P l = [].
Proof.
  induction 1 as [|x l Hx Hl IH]; [done|].
  by rewrite filter_cons_False, IH.
Qed.

Lemma Forall_filter_keep {A} (P Q : A → Prop) `{!∀ x, Decision (Q x)}
    (l : list A) :
  Forall P l → Forall P (filter Q l).
Proof.
  induction 1 as [|x l Hx Hl IH]; [constructor|].
  rewrite filter_cons. case_decide; [by constructor|done].
Qed.

(* ================================================================== *)
(** ** What an iteration of the loop does *)

Lemma run_handle_alt w t :
  run_handle w t
  = mkWorld (clock w) (bar w) (shown w)
            (ready w ++ to_ready t)
            (scheduled w ++ to_timer (clock w) t)
            (done w ++ to_done (queue w) t) (queue w).
Proof.
  destruct w, t as [i o [v|d k]];
    unfold run_handle, to_ready, to_timer, to_done, set_done, set_ready,
           set_scheduled; cbn;
    repeat case_decide; rewrite ?app_nil_r; done.
Qed.

Lemma run_handles_alt hs w :
  foldl run_handle w hs
  = mkWorld (clock w) (bar w) (shown w)
            (ready w ++ (hs ≫= to_ready))
            (scheduled w ++ (hs ≫= to_timer (clock w)))
            (done w ++ (hs ≫= to_done (queue w))) (queue w).
Proof.
  revert w. induction hs as [|t hs IH]; intros w.
  - destruct w; cbn. by rewrite !app_nil_r.
  - cbn [foldl]. rewrite IH, run_handle_alt, !bind_cons.
    cbn [clock bar shown ready scheduled done queue].
    by rewrite <-!app_assoc.
Qed.

Lemma run_at_spec sch now w :
  run_at sch now w
  = let hs := ready w
              ++ (heap_order sch (filter (λ e, e.1 ≤ now) (scheduled w))).*2 in
    mkWorld now (bar w) (shown w)
            (hs ≫= to_ready)
            (filter (λ e, ¬ e.1 ≤ now) (scheduled w) ++ (hs ≫= to_timer now))
            (done w ++ (hs ≫= to_done (queue w))) (queue w).
Proof. unfold run_at. by rewrite run_handles_alt. Qed.

(** What a handle leaves behind reports to the queue the handle reported
    to; only handles of the current queue reach it. *)
Lemma to_ready_mine q t : mine q t → Forall (mine q) (to_ready t).
Proof.
  unfold to_ready. destruct (coro t); [constructor|].
  case_decide; by repeat constructor.
Qed.

Lemma to_ready_foreign q t :
  ¬ mine q t → Forall (λ t', ¬ mine q t') (to_ready t).
Proof.
  unfold to_ready. destruct (coro t); [constructor|].
  case_decide; by repeat constructor.
Qed.

Lemma to_timer_mine q now t :
  mine q t → Forall (λ e, mine q e.2) (to_timer now t).
Proof.
  unfold to_timer. destruct (coro t); [constructor|].
  case_decide; by repeat constructor.
Qed.

Lemma to_timer_foreign q now t :
  ¬ mine q t → Forall (λ e, ¬ mine q e.2) (to_timer now t).
Proof.
  unfold to_timer. destruct (coro t); [constructor|].
  case_decide; by repeat constructor.
Qed.

Lemma to_done_foreign q t : ¬ mine q t → to_done q t = [].
Proof.
  unfold to_done, mine. destruct (coro t); [|done]. intros ?.
  by rewrite decide_False.
Qed.

Lemma filter_bind_ready q (hs : list Task) :
  filter (mine q) (hs ≫= to_ready) = filter (mine q) hs ≫= to_ready.
Proof.
  induction hs as [|t hs IH]; [done|].
  rewrite bind_cons, list.filter_app, IH, filter_cons.
  destruct (decide (mine q t)) as [Ht|Ht].
  - by rewrite bind_cons, (filter_all _ _ (to_ready_mine q t Ht)).
  - by rewrite (filter_none _ _ (to_ready_foreign q t Ht)).
Qed.

Lemma filter_bind_timer q now (hs : list Task) :
  filter (λ e : Z * Task, mine q e.2) (hs ≫= to_timer now)
  = filter (mine q) hs ≫= to_timer now.
Proof.
  induction hs as [|t hs IH]; [done|].
  rewrite bind_cons, list.filter_app, IH, filter_cons.
  destruct (decide (mine q t)) as [Ht|Ht].
  - by rewrite bind_cons, (filter_all _ _ (to_timer_mine q now t Ht)).
  - by rewrite (filter_none _ _ (to_timer_foreign q now t Ht)).
Qed.

Lemma filter_bind_done q (hs : list Task) :
  hs ≫= to_done q = filter (mine q) hs ≫= to_done q.
Proof.
  induction hs as [|t hs IH]; [done|].
  rewrite bind_cons, IH, filter_cons.
  destruct (decide (mine q t)) as [Ht|Ht].
  - by rewrite bind_cons.
  - by rewrite (to_done_foreign q t Ht).
Qed.

(** The handles of the units of [do1]. *)
Lemma spawn_to_ready q (ps : list (nat * Z)) :
  (spawn q <$> ps) ≫= to_ready = [].
Proof.
  induction ps as [|p ps IH]; [done|].
  cbn [fmap list_fmap]. rewrite bind_cons, IH.
  unfold to_ready, spawn, afoo; cbn [coro]. by rewrite decide_False by lia.
Qed.

Lemma spawn_to_timer q now (ps : list (nat * Z)) :
  (spawn q <$> ps) ≫= to_timer now = asleep q (now + 200) <$> ps.
Proof.
  induction ps as [|p ps IH]; [done|].
  cbn [fmap list_fmap]. rewrite bind_cons, IH.
  unfold to_timer, spawn, afoo; cbn [coro name watcher].
  by rewrite decide_False by lia.
Qed.

Lemma spawn_to_done q q' (ps : list (nat * Z)) :
  (spawn q <$> ps) ≫= to_done q' = [].
Proof.
  induction ps as [|p ps IH]; [done|].
  cbn [fmap list_fmap]. by rewrite bind_cons, IH.
Qed.

Lemma asleep_to_ready q t (ps : list (nat * Z)) :
  (asleep q t <$> ps).*2 ≫= to_ready = [].
Proof.
  induction ps as [|p ps IH]; [done|].
  cbn [fmap list_fmap]. by rewrite bind_cons, IH.
Qed.

Lemma asleep_to_timer q t now (ps : list (nat * Z)) :
  (asleep q t <$> ps).*2 ≫= to_timer now = [].
Proof.
  induction ps as [|p ps IH]; [done|].
  cbn [fmap list_fmap]. by rewrite bind_cons, IH.
Qed.

Lemma asleep_to_done q t (ps : list (nat * Z)) :
  (asleep q t <$> ps).*2 ≫= to_done q = finished <$> ps.
Proof.
  induction ps as [|p ps IH]; [done|].
  cbn [fmap list_fmap]. rewrite bind_cons, IH.
  unfold to_done, asleep; cbn [snd coro watcher name].
  by rewrite decide_True.
Qed.

Lemma due_asleep q t now (ps : list (nat * Z)) :
  t ≤ now →
  filter (λ e : Z * Task, e.1 ≤ now) (asleep q t <$> ps) = asleep q t <$> ps.
Proof.
  intros Hle. apply filter_all, Forall_fmap, Forall_true. intros p. cbn. lia.
Qed.

Lemma not_due_asleep q t now (ps : list (nat * Z)) :
  now < t →
  filter (λ e : Z * Task, e.1 ≤ now) (asleep q t <$> ps) = [].
Proof.
  intros Hlt. apply filter_none, Forall_fmap, Forall_true. intros p. cbn. lia.
Qed.

Lemma later_asleep q t now (ps : list (nat * Z)) :
  now < t →
  filter (λ e : Z * Task, ¬ e.1 ≤ now) (asleep q t <$> ps) = asleep q t <$> ps.
Proof.
  intros Hlt. apply filter_all, Forall_fmap, Forall_true. intros p. cbn. lia.
Qed.

Lemma not_later_asleep q t now (ps : list (nat * Z)) :
  t ≤ now →
  filter (λ e : Z * Task, ¬ e.1 ≤ now) (asleep q t <$> ps) = [].
Proof.
  intros Hle. apply filter_none, Forall_fmap, Forall_true. intros p. cbn. lia.
Qed.

(** The handles of the current queue through one iteration at [now]: the
    runnable ones, then those among the due timers, in the order [M] the
    heap gives them up. *)
Lemma run_at_mine sch now w :
  ∃ M,
    M ≡ₚ filter (λ e, e.1 ≤ now)
                (filter (λ e, mine (queue w) e.2) (scheduled w)) ∧
    ((∀ k, heap_pick sch k = 0%nat) →
     ∀ T, (∀ e, e ∈ scheduled w → mine (queue w) e.2 → e.1 ≤ now → e.1 = T) →
     M = filter (λ e, e.1 ≤ now)
                (filter (λ e, mine (queue w) e.2) (scheduled w))) ∧
    filter (mine (queue w)) (ready (run_at sch now w))
    = (filter (mine (queue w)) (ready w) ++ M.*2) ≫= to_ready ∧
    filter (λ e, mine (queue w) e.2) (scheduled (run_at sch now w))
    = filter (λ e, ¬ e.1 ≤ now)
             (filter (λ e, mine (queue w) e.2) (scheduled w))
      ++ ((filter (mine (queue w)) (ready w) ++ M.*2) ≫= to_timer now) ∧
    done (run_at sch now w)
    = done w ++ ((filter (mine (queue w)) (ready w) ++ M.*2)
                 ≫= to_done (queue w)).
Proof.
  set (q := queue w).
  set (due := filter (λ e : Z * Task, e.1 ≤ now) (scheduled w)).
  exists (filter (λ e, mine q e.2) (heap_order sch due)).
  split; [|split].
  - rewrite heap_order_Permutation. subst due. by rewrite filter_comm.
  - intros Hfifo T HT. unfold heap_order.
    rewrite (arbitrary_order_fifo _ _ Hfifo).
    rewrite (by_deadline_stable _ T).
    + subst due. by rewrite filter_comm.
    + intros e [He ?]%list_elem_of_filter Hm. by apply HT.
  - rewrite run_at_spec. cbn [ready scheduled done]. fold q due.
    assert (filter (mine q) (ready w ++ (heap_order sch due).*2)
            = filter (mine q) (ready w)
              ++ (filter (λ e, mine q e.2) (heap_order sch due)).*2) as Hhs.
    { by rewrite list.filter_app, filter_snd. }
    split; [|split].
    + by rewrite filter_bind_ready, Hhs.
    + rewrite list.filter_app, filter_bind_timer, Hhs. f_equal.
      apply filter_comm.
    + by rewrite (filter_bind_done q), Hhs.
Qed.

(** The rest of the world through one iteration. *)
Lemma run_at_frame sch now w :
  clock (run_at sch now w) = now ∧ bar (run_at sch now w) = bar w ∧
  shown (run_at sch now w) = shown w ∧ queue (run_at sch now w) = queue w.
Proof. by rewrite run_at_spec. Qed.

Lemma run_at_own sch now w : own w → own (run_at sch now w).
Proof.
  intros [Hr Hs]. rewrite run_at_spec. unfold own.
  cbn [ready scheduled queue].
  set (hs := ready w ++ _).
  assert (Forall (mine (queue w)) hs) as Hhs.
  { subst hs. apply Forall_app. split; [done|].
    apply Forall_fmap. rewrite heap_order_Permutation.
    by apply Forall_filter_keep. }
  split.
  - apply Forall_bind. eapply List.Forall_impl; [|exact Hhs].
    intros t. apply to_ready_mine.
  - apply Forall_app. split; [by apply Forall_filter_keep|].
    apply Forall_bind. eapply List.Forall_impl; [|exact Hhs].
    intros t. apply to_timer_mine.
Qed.

Lemma own_ready w :
  own w → ready w = filter (mine (queue w)) (ready w).
Proof. intros [Hr _]. by rewrite filter_all. Qed.

Lemma own_scheduled w :
  own w → scheduled w = filter (λ e, mine (queue w) e.2) (scheduled w).
Proof. intros [_ Hs]. by rewrite filter_all. Qed.
(* ================================================================== *)
(** ** The loop runs out of work, not out of fuel *)

Lemma task_size_pos t : (0 < task_size t)%nat.
Proof. unfold task_size. destruct (coro t); cbn; lia. Qed.

(** Running a handle uses up one unit of the task's work. *)
Lemma run_handle_work w t :
  S (pending_work (run_handle w t)) = (pending_work w + task_size t)%nat.
Proof.
  rewrite run_handle_alt. unfold pending_work, to_ready, to_timer, task_size.
  cbn [ready scheduled]. destruct t as [i o [v|d k]]; cbn [coro name watcher].
  - rewrite !app_nil_r. cbn [coro_size]. lia.
  - case_decide; rewrite !sum_list_with_app;
      cbn [sum_list_with coro_size coro snd]; lia.
Qed.

Lemma run_handles_work hs w :
  (pending_work (foldl run_handle w hs) + length hs
   = pending_work w + sum_list_with task_size hs)%nat.
Proof.
  revert w. induction hs as [|t hs IH]; intros w; cbn [foldl length sum_list_with].
  - lia.
  - specialize (IH (run_handle w t)). pose proof (run_handle_work w t). lia.
Qed.

Lemma earliest_elem s m : earliest s = Some m → ∃ e, e ∈ s ∧ e.1 = m.
Proof.
  destruct s as [|e0 s]; [done|]. cbn [earliest]. intros [= <-].
  assert (∀ init, foldr (λ e' m, Z.min e'.1 m) init s = init
                  ∨ ∃ e, e ∈ s ∧ e.1 = foldr (λ e' m, Z.min e'.1 m) init s) as H.
  { intros init. induction s as [|e s IH]; [by left|]. cbn [foldr].
    destruct (Z.min_spec e.1 (foldr (λ e' m, Z.min e'.1 m) init s))
      as [[_ ->]|[_ ->]].
    - right. exists e. split; [apply list_elem_of_here|done].
    - destruct IH as [->|(e' & He' & <-)]; [by left|].
      right. exists e'. split; [by apply list_elem_of_further|done]. }
  destruct (H e0.1) as [->|(e & He & <-)].
  - exists e0. split; [apply list_elem_of_here|done].
  - exists e. split; [by apply list_elem_of_further|done].
Qed.

Lemma earliest_le s e : e ∈ s → ∃ m, earliest s = Some m ∧ m ≤ e.1.
Proof.
  destruct s as [|e0 s]; [by intros ?%elem_of_nil|]. intros He.
  eexists. split; [done|].
  assert (∀ init, foldr (λ e' m, Z.min e'.1 m) init s ≤ init
                  ∧ ∀ e', e' ∈ s →
                          foldr (λ e' m, Z.min e'.1 m) init s ≤ e'.1) as H.
  { clear He. intros init. induction s as [|e1 s IH]; cbn [foldr].
    - split; [done|]. by intros ? ?%elem_of_nil.
    - destruct IH as [IH1 IH2].
      split; [lia|]. intros e' [->|He']%elem_of_cons; [lia|].
      specialize (IH2 e' He'). lia. }
  destruct (H e0.1) as [H1 H2].
  apply elem_of_cons in He as [->|He]; [done|]. by apply H2.
Qed.

(** Every iteration that does not block for ever runs at least one handle,
    so the work left goes down. *)
Lemma run_once_work sch w w' :
  run_once sch w = Some w' → (pending_work w' < pending_work w)%nat.
Proof.
  unfold run_once.
  destruct (wake_time w) as [now|] eqn:Hwake; [|done].
  cbn [mbind option_bind]. intros [= <-]. unfold run_at.
  set (due := filter (λ e : Z * Task, e.1 ≤ now) (scheduled w)).
  set (later := filter (λ e : Z * Task, ¬ e.1 ≤ now) (scheduled w)).
  set (hs := ready w ++ (heap_order sch due).*2).
  pose proof (run_handles_work hs
                (set_scheduled later (set_ready [] (set_clock now w)))) as Hw.
  assert (sum_list_with task_size hs
          = (sum_list_with task_size (ready w)
             + sum_list_with (λ e, task_size e.2) due)%nat) as Hhs.
  { subst hs. rewrite sum_list_with_app. f_equal.
    rewrite <-(heap_order_Permutation sch due) at 2.
    generalize (heap_order sch due). intros l.
    induction l as [|e l IH]; [done|]. cbn. by rewrite IH. }
  assert (sum_list_with (λ e : Z * Task, task_size e.2) (scheduled w)
          = (sum_list_with (λ e, task_size e.2) due
             + sum_list_with (λ e, task_size e.2) later)%nat) as Hsplit.
  { rewrite <-sum_list_with_app. subst due later.
    by rewrite filter_app_complement. }
  assert (0 < length hs)%nat as Hpos.
  { subst hs. rewrite length_app, length_fmap.
    rewrite (Permutation_length (heap_order_Permutation sch due)).
    unfold wake_time in Hwake.
    destruct (ready w) as [|t r] eqn:Hr; [|cbn; lia].
    destruct (earliest (scheduled w)) as [m|] eqn:Hm; [|done].
    cbn in Hwake. injection Hwake as <-.
    destruct (earliest_elem _ _ Hm) as (e & He & Hem).
    assert (e ∈ due) as Hdue.
    { subst due. apply list_elem_of_filter. split; [lia|done]. }
    destruct due; [by apply elem_of_nil in Hdue|cbn; lia]. }
  unfold pending_work in *.
  cbn [ready scheduled set_scheduled set_ready set_clock sum_list_with] in Hw.
  lia.
Qed.

(** Fuel beyond the work left changes nothing: [await_one] yields no value
    only when the loop itself blocks for ever. *)
Lemma wait_for_one_fuel sch f1 f2 w :
  (pending_work w ≤ f1)%nat → (pending_work w ≤ f2)%nat →
  wait_for_one f1 sch w = wait_for_one f2 sch w.
Proof.
  revert f2 w. induction f1 as [|f1 IH]; intros f2 w H1 H2.
  - destruct f2 as [|f2]; [done|]. cbn [wait_for_one].
    destruct (done w); [|done].
    destruct (run_once sch w) as [w'|] eqn:Hrun; [|done].
    apply run_once_work in Hrun. lia.
  - cbn [wait_for_one]. destruct (done w) as [|f q] eqn:Hd.
    + destruct (run_once sch w) as [w'|] eqn:Hrun.
      * pose proof (run_once_work _ _ _ Hrun) as Hlt.
        destruct f2 as [|f2]; [lia|]. cbn [wait_for_one].
        rewrite Hd, Hrun. cbn [mbind option_bind]. apply IH; lia.
      * destruct f2; cbn [wait_for_one]; rewrite Hd; [done|]. by rewrite Hrun.
    + destruct f2; cbn [wait_for_one]; by rewrite Hd.
Qed.

Lemma await_one_fuel sch fuel w :
  (pending_work w ≤ fuel)%nat → wait_for_one fuel sch w = await_one sch w.
Proof. intros Hf. by apply wait_for_one_fuel. Qed.

(** A result already on the queue is handed over without running the
    loop. *)
Lemma wait_for_one_ready fuel sch w f q :
  done w = f :: q → wait_for_one fuel sch w = Some (result f, set_done q w).
Proof. intros Hd. destruct fuel; cbn; by rewrite Hd. Qed.

Lemma await_one_ready sch w f q :
  done w = f :: q → await_one sch w = Some (result f, set_done q w).
Proof. apply wait_for_one_ready. Qed.

Lemma pending_work_ready w t :
  t ∈ ready w → (0 < pending_work w)%nat.
Proof.
  intros Ht. unfold pending_work.
  pose proof (sum_list_with_in t task_size (ready w) Ht).
  pose proof (task_size_pos t). lia.
Qed.

Lemma pending_work_scheduled w e :
  e ∈ scheduled w → (0 < pending_work w)%nat.
Proof.
  intros He. unfold pending_work.
  pose proof (sum_list_with_in e (λ e, task_size e.2) (scheduled w) He).
  pose proof (task_size_pos e.2). cbn in *. lia.
Qed.

(** While a timer is armed the loop wakes, and not after its deadline. *)
Lemma wake_time_armed w e :
  e ∈ scheduled w → clock w ≤ e.1 →
  ∃ now, wake_time w = Some now ∧ clock w ≤ now ≤ e.1.
Proof.
  intros He Hle. unfold wake_time. destruct (ready w).
  - destruct (earliest_le _ _ He) as (m & -> & Hm).
    exists (Z.max (clock w) m). split; [done|]. lia.
  - exists (clock w). split; [done|]. lia.
Qed.
(* ================================================================== *)
(** ** The life of the tasks of [do1] *)

Lemma tasks_units q N :
  imap (λ i c, mkTask i (Some q) c) (afoo <$> range N) = spawn q <$> units N.
Proof. unfold units. rewrite imap_fmap, fmap_imap. by apply imap_ext. Qed.

Lemma units_length N : length (units N) = Z.to_nat N.
Proof. unfold units. by rewrite length_imap, range_length. Qed.

Lemma units_snd N : (units N).*2 = range N.
Proof.
  unfold units. rewrite fmap_imap.
  generalize (range N) as l. intros l. generalize 0%nat as i. intros i.
  revert i. induction l as [|a l IH]; intros i; [done|].
  cbn. f_equal. apply (IH (S i)).
Qed.

(** No task that is on the loop reports to a queue made now. *)
Lemma fresh_queue_ready w :
  Forall (λ t, ¬ mine (fresh_queue w) t) (ready w).
Proof.
  apply list.Forall_forall. intros t Ht Hm. unfold mine, fresh_queue in Hm.
  assert (S (max_list (queue w :: omap watcher (ready w ++ (scheduled w).*2)))
          ≤ max_list (queue w :: omap watcher (ready w ++ (scheduled w).*2)))%nat;
    [|lia].
  apply max_list_elem_of_le, list_elem_of_further, list_elem_of_omap.
  exists t. split; [|done]. apply elem_of_app. by left.
Qed.

Lemma fresh_queue_scheduled w :
  Forall (λ e : Z * Task, ¬ mine (fresh_queue w) e.2) (scheduled w).
Proof.
  apply list.Forall_forall. intros e He Hm. unfold mine, fresh_queue in Hm.
  assert (S (max_list (queue w :: omap watcher (ready w ++ (scheduled w).*2)))
          ≤ max_list (queue w :: omap watcher (ready w ++ (scheduled w).*2)))%nat;
    [|lia].
  apply max_list_elem_of_le, list_elem_of_further, list_elem_of_omap.
  exists e.2. split; [|done]. apply elem_of_app. right.
  apply list_elem_of_fmap. by exists e.
Qed.

Lemma spawn_mine q (ps : list (nat * Z)) : Forall (mine q) (spawn q <$> ps).
Proof. apply Forall_fmap, Forall_true. done. Qed.

(** First iteration after the launch: every unit starts, reaches its
    sleep and leaves a timer 200 ms ahead.  No time passes, whatever else
    the loop runs. *)
Lemma start_step sch w ps :
  ps ≠ [] →
  filter (mine (queue w)) (ready w) = spawn (queue w) <$> ps →
  filter (λ e, mine (queue w) e.2) (scheduled w) = [] →
  ∃ w1, run_once sch w = Some w1 ∧
    clock w1 = clock w ∧ bar w1 = bar w ∧ shown w1 = shown w ∧
    queue w1 = queue w ∧ done w1 = done w ∧
    filter (mine (queue w)) (ready w1) = [] ∧
    filter (λ e, mine (queue w) e.2) (scheduled w1)
    = asleep (queue w) (clock w + 200) <$> ps ∧
    (own w → own w1).
Proof.
  intros Hps Hr Hs. unfold run_once, wake_time.
  destruct (ready w) as [|t r] eqn:Hready.
  { rewrite filter_nil in Hr. by destruct ps. }
  cbn [mbind option_bind]. exists (run_at sch (clock w) w).
  split; [done|].
  destruct (run_at_frame sch (clock w) w) as (Hc & Hb & Hsh & Hq).
  destruct (run_at_mine sch (clock w) w) as (M & HM & _ & HMr & HMs & HMd).
  rewrite Hs, filter_nil in HM. apply Permutation_nil_r in HM as ->.
  rewrite Hready, Hr, Hs in *. cbn [fmap list_fmap] in *.
  rewrite filter_nil, app_nil_r in *.
  rewrite spawn_to_ready in HMr. rewrite spawn_to_timer in HMs.
  rewrite spawn_to_done, app_nil_r in HMd.
  split_and!; try done. apply run_at_own.
Qed.

(** A later iteration, while the units sleep until [T]: either the loop
    wakes before [T] and the units sleep on, or it wakes at [T] and every
    unit resumes, returns and is queued on [done], in an order the runtime
    chooses. *)
Lemma sleep_step sch w ps T :
  ps ≠ [] →
  filter (mine (queue w)) (ready w) = [] →
  filter (λ e, mine (queue w) e.2) (scheduled w) = asleep (queue w) T <$> ps →
  clock w ≤ T →
  ∃ w1, run_once sch w = Some w1 ∧
    bar w1 = bar w ∧ shown w1 = shown w ∧ queue w1 = queue w ∧
    (own w → own w1) ∧ clock w ≤ clock w1 ≤ T ∧
    ((clock w1 < T ∧ done w1 = done w ∧
      filter (mine (queue w)) (ready w1) = [] ∧
      filter (λ e, mine (queue w) e.2) (scheduled w1)
      = asleep (queue w) T <$> ps)
     ∨ (clock w1 = T ∧
        ∃ fs, fs ≡ₚ finished <$> ps ∧
          ((∀ k, heap_pick sch k = 0%nat) → fs = finished <$> ps) ∧
          done w1 = done w ++ fs ∧
          filter (mine (queue w)) (ready w1) = [] ∧
          filter (λ e, mine (queue w) e.2) (scheduled w1) = [])).
Proof.
  intros Hps Hr Hs HT.
  destruct ps as [|p ps0] eqn:Eps; [done|]. rewrite <-Eps in *.
  assert (asleep (queue w) T p ∈ scheduled w) as Hin.
  { assert (asleep (queue w) T p
            ∈ filter (λ e : Z * Task, mine (queue w) e.2) (scheduled w)) as H.
    { rewrite Hs, Eps. apply list_elem_of_here. }
    by apply list_elem_of_filter in H as [_ H]. }
  destruct (wake_time_armed w _ Hin) as (now & Hwake & Hnow); [done|].
  cbn [fst asleep] in Hnow.
  unfold run_once. rewrite Hwake. cbn [mbind option_bind].
  exists (run_at sch now w). split; [done|].
  destruct (run_at_frame sch now w) as (Hc & Hb & Hsh & Hq).
  destruct (run_at_mine sch now w) as (M & HM & HMfifo & HMr & HMs & HMd).
  rewrite Hr, Hs in *. cbn [app] in *.
  split; [done|]. split; [done|]. split; [done|].
  split; [apply run_at_own|]. rewrite Hc. split; [done|].
  destruct (decide (T ≤ now)) as [Hfire|Hnot].
  - right. split; [lia|].
    rewrite due_asleep in HM by done.
    rewrite not_later_asleep in HMs by done.
    exists (M.*2 ≫= to_done (queue w)). split; [|split; [|split; [|split]]].
    + by rewrite HM, asleep_to_done.
    + intros Hfifo. rewrite (HMfifo Hfifo T).
      * by rewrite due_asleep, asleep_to_done.
      * intros e He Hm Hle.
        assert (e ∈ asleep (queue w) T <$> (p :: ps0)) as Hin'.
        { rewrite <-Eps, <-Hs. apply list_elem_of_filter. done. }
        apply list_elem_of_fmap in Hin' as (p' & -> & _). done.
    + done.
    + rewrite HMr. apply Permutation_nil_r.
      by rewrite HM, asleep_to_ready.
    + rewrite HMs. cbn [app]. apply Permutation_nil_r.
      by rewrite HM, asleep_to_timer.
  - left. split; [lia|].
    rewrite not_due_asleep in HM by lia. apply Permutation_nil_r in HM as ->.
    rewrite later_asleep in HMs by lia.
    cbn [fmap list_fmap mbind list_bind] in *.
    rewrite app_nil_r in *. done.
Qed.

(** From the first sleep to the first result: the loop iterates, running
    what else it holds, until the clock reaches [T]; then the completion
    queue holds every unit, and not before. *)
Lemma wait_fires sch ps T fuel : ∀ w,
  ps ≠ [] →
  filter (mine (queue w)) (ready w) = [] →
  filter (λ e, mine (queue w) e.2) (scheduled w) = asleep (queue w) T <$> ps →
  done w = [] → clock w ≤ T → (pending_work w ≤ fuel)%nat →
  ∃ fs wC, fs ≡ₚ finished <$> ps ∧
    ((∀ k, heap_pick sch k = 0%nat) → fs = finished <$> ps) ∧
    wait_for_one fuel sch w = wait_for_one 0 sch wC ∧
    done wC = fs ∧ clock wC = T ∧ bar wC = bar w ∧ shown wC = shown w ∧
    queue wC = queue w ∧
    filter (mine (queue w)) (ready wC) = [] ∧
    filter (λ e, mine (queue w) e.2) (scheduled wC) = [] ∧
    (own w → own wC).
Proof.
  induction fuel as [|fuel IH]; intros w Hps Hr Hs Hd HT Hfuel.
  - exfalso. destruct ps as [|p ps0]; [done|].
    assert (asleep (queue w) T p ∈ scheduled w) as Hin.
    { assert (asleep (queue w) T p
              ∈ filter (λ e : Z * Task, mine (queue w) e.2) (scheduled w)) as H.
      { rewrite Hs. apply list_elem_of_here. }
      by apply list_elem_of_filter in H as [_ H]. }
    pose proof (pending_work_scheduled _ _ Hin). lia.
  - destruct (sleep_step sch w ps T Hps Hr Hs HT)
      as (w1 & Hrun & Hb & Hsh & Hq & Hown & Hclock & Hcase).
    pose proof (run_once_work _ _ _ Hrun) as Hwork.
    cbn [wait_for_one]. rewrite Hd, Hrun. cbn [mbind option_bind].
    destruct Hcase as [(Hlt & Hd1 & Hr1 & Hs1)
                      |(Heq & fs & Hperm & Hfifo & Hd1 & Hr1 & Hs1)].
    + destruct (IH w1)
        as (fs & wC & Hp & Hf & Hw & HdC & HcC & HbC & HshC & HqC & HrC & HsC
            & HoC).
      { done. } { by rewrite Hq. } { by rewrite Hq. } { by rewrite Hd1. }
      { lia. } { lia. }
      exists fs, wC. rewrite Hw. rewrite Hq, Hb, Hsh in *.
      split_and!; try done. intros ?%Hown. by apply HoC.
    + exists fs, w1. rewrite Hd in Hd1. cbn [app] in Hd1.
      split; [done|]. split; [done|]. split; [|done].
      destruct fs as [|f fs'].
      { apply Permutation_nil_l in Hperm. by destruct ps. }
      rewrite (wait_for_one_ready _ _ _ f fs') by done. by rewrite Hd1.
Qed.

(** The first [await] after the launch, on any loop: 200 ms later the
    completion queue holds every unit, and nothing of the units is left on
    the loop. *)
Lemma await_launched sch w ps :
  ps ≠ [] →
  filter (mine (queue w)) (ready w) = spawn (queue w) <$> ps →
  filter (λ e, mine (queue w) e.2) (scheduled w) = [] →
  done w = [] →
  ∃ fs wC, fs ≡ₚ finished <$> ps ∧
    ((∀ k, heap_pick sch k = 0%nat) → fs = finished <$> ps) ∧
    await_one sch w = wait_for_one 0 sch wC ∧
    done wC = fs ∧ clock wC = clock w + 200 ∧
    bar wC = bar w ∧ shown wC = shown w ∧ queue wC = queue w ∧
    filter (mine (queue w)) (ready wC) = [] ∧
    filter (λ e, mine (queue w) e.2) (scheduled wC) = [] ∧
    (own w → own wC).
Proof.
  intros Hps Hr Hs Hd.
  destruct (start_step sch w ps Hps Hr Hs)
    as (w1 & Hrun & Hc & Hb & Hsh & Hq & Hd1 & Hr1 & Hs1 & Hown).
  pose proof (run_once_work _ _ _ Hrun) as Hwork.
  unfold await_one.
  destruct (pending_work w) as [|fuel] eqn:Hfuel; [lia|].
  cbn [wait_for_one]. rewrite Hd, Hrun. cbn [mbind option_bind].
  destruct (wait_fires sch ps (clock w + 200) fuel w1)
    as (fs & wC & Hp & Hf & Hw & HdC & HcC & HbC & HshC & HqC & HrC & HsC
        & HoC).
  { done. } { by rewrite Hq. } { by rewrite Hq. } { by rewrite Hd1. }
  { lia. } { lia. }
  exists fs, wC. rewrite Hw. rewrite Hq, Hb, Hsh in *.
  split_and!; try done. intros ?%Hown. by apply HoC.
Qed.

(** Draining the completion queue: every further [await] pops one future
    and moves the bar by one; no time passes and the loop is not run. *)
Lemma drain_done sch fs w :
  done w = fs →
  mapM (λ t : Py Z, y ← t; tqdm_update;; mret y)
       (replicate (length fs) (await_one sch)) w
  = Some (result <$> fs, advanced (length fs) 0 (set_done [] w)).
Proof.
  revert w. induction fs as [|f fs IH]; intros w Hd.
  - cbn [length replicate]. rewrite mapM_Py_nil, advanced_0.
    destruct w; cbn in *. by subst.
  - cbn [length replicate]. eapply mapM_Py_cons.
    + apply tqdm_body_Some. by apply await_one_ready.
    + rewrite IH by done. cbn [fmap list_fmap]. do 2 f_equal.
      change (bar (set_done fs w)) with (bar w).
      rewrite <-(advanced_step_still (length fs) w []).
      destruct w; unfold advanced, set_bar, set_done; cbn. done.
Qed.
(* ================================================================== *)
(** ** The concurrent runner, start to end *)

(** Whatever the loop holds and whatever the runtime chooses,
    [asyncio.run(do1())] returns.  The list returned is the results of the
    futures [fs] in the order they reached the completion queue: all the
    units, in some order, and in launch order if the heap gives up equal
    deadlines first come first served.  One delay has passed if there was
    any unit at all; the bar has moved once per unit, each time after the
    delay; the queue is empty; a loop that held nothing at the start holds
    nothing at the end. *)
Lemma concurrent_general sch N w :
  ∃ fs w',
    fs ≡ₚ finished <$> units N ∧
    ((∀ k, heap_pick sch k = 0%nat) →
     fs = finished <$> arbitrary_order (set_pick sch) (units N)) ∧
    concurrent sch N w = Some (result <$> fs, w') ∧
    clock w' = clock w + (if decide (0 < N) then 200 else 0) ∧
    bar w' = mkBar (Z.of_nat (length fs)) N ∧
    shown w'
    = shown w ++ (clock w, mkBar 0 N)
              :: ticks (clock w + 200) 0 (mkBar 0 N) (length fs) ∧
    done w' = [] ∧ queue w' = fresh_queue w ∧
    (ready w = [] → scheduled w = [] → ready w' = [] ∧ scheduled w' = []).
Proof.
  unfold concurrent, asyncio_run, do1, tqdm_comprehension.
  erewrite Py_bind_Some by reflexivity.
  erewrite Py_bind_Some by reflexivity.
  set (w1 := set_bar (mkBar 0 N) w).
  change (fresh_queue w1) with (fresh_queue w).
  set (q := fresh_queue w).
  rewrite tasks_units, arbitrary_order_fmap, length_fmap.
  remember (arbitrary_order (set_pick sch) (units N)) as ps eqn:Eps.
  assert (ps ≡ₚ units N) as Hps.
  { rewrite Eps. apply arbitrary_order_Permutation. }
  clear Eps.
  pose proof (Permutation_length Hps) as Hlen. rewrite units_length in Hlen.
  set (wA := set_ready _ _).
  destruct (decide (ps = [])) as [Hnil|Hne].
  - exists [], wA. subst ps. cbn [length] in Hlen.
    split; [by rewrite <-Hps|]. split; [done|].
    cbn [length replicate fmap list_fmap]. rewrite mapM_Py_nil.
    split; [done|]. rewrite decide_False by lia.
    subst wA w1.
    cbn [clock bar shown ready scheduled done queue set_ready new_queue
         set_bar ticks].
    rewrite Z.add_0_r. split_and!; try done.
    intros Hr0 Hs0. by rewrite Hr0.
  - assert (queue wA = q) as HqA by done.
    assert (filter (mine (queue wA)) (ready wA) = spawn (queue wA) <$> ps)
      as HrA.
    { rewrite HqA. subst wA w1. cbn [ready set_ready new_queue set_bar].
      rewrite list.filter_app.
      rewrite (filter_none _ _ (fresh_queue_ready w)).
      by rewrite (filter_all _ _ (spawn_mine q ps)). }
    assert (filter (λ e, mine (queue wA) e.2) (scheduled wA) = []) as HsA.
    { rewrite HqA. subst wA w1. cbn [scheduled set_ready new_queue set_bar].
      apply filter_none, fresh_queue_scheduled. }
    destruct (await_launched sch wA ps Hne HrA HsA)
      as (fs & wC & Hfs & Hfifo & Hfirst & HdC & HcC & HbC & HshC & HqC
          & HrC & HsC & HoC); [done|].
    exists fs, (advanced (length fs) 0 (set_done [] wC)).
    split; [by rewrite Hfs, Hps|]. split; [done|].
    assert (length ps = length fs) as Hl.
    { by rewrite (Permutation_length Hfs), length_fmap. }
    rewrite Hl. destruct fs as [|f fs'] eqn:Efs.
    { apply Permutation_nil_l in Hfs. by destruct ps. }
    rewrite <-Efs in *.
    assert (await_one sch wA = await_one sch wC) as Hsame.
    { rewrite Hfirst, Efs in *.
      by rewrite (await_one_ready _ _ f fs'), (wait_for_one_ready _ _ _ f fs'). }
    split.
    { rewrite Efs. cbn [length replicate]. erewrite mapM_Py_first.
      2:{ unfold mbind at 1 3, Py_bind. by rewrite Hsame. }
      change (await_one sch :: replicate (length fs') (await_one sch))
        with (replicate (length (f :: fs')) (await_one sch)).
      by rewrite (drain_done sch (f :: fs')) by (by rewrite <-Efs). }
    assert (0 < N) as HN.
    { destruct ps; [done|]. cbn [length] in Hlen. lia. }
    rewrite decide_True by done.
    cbn [clock bar shown ready scheduled done queue advanced set_done].
    rewrite HcC, HbC, HshC, HqC.
    subst wA w1.
    cbn [clock bar shown ready scheduled done queue set_ready new_queue
         set_bar n total].
    rewrite <-app_assoc. split_and!; try done; try lia.
    intros Hr0 Hs0.
    assert (own wC) as [HoR HoS].
    { apply HoC. unfold own.
      cbn [ready scheduled queue set_ready new_queue set_bar].
      rewrite Hr0, Hs0. split; [apply spawn_mine|constructor]. }
    rewrite HqC in HoR, HoS. cbn [queue set_ready new_queue] in *.
    rewrite <-HrC, <-HsC.
    cbn [queue set_ready new_queue set_bar].
    by rewrite (filter_all _ _ HoR), (filter_all _ _ HoS).
Qed.

Lemma result_finished (ps : list (nat * Z)) :
  result <$> (finished <$> ps) = (λ p, p.2 ^ 2) <$> ps.
Proof. by rewrite <-list_fmap_compose. Qed.

Lemma squares_units_eq N :
  (λ p : nat * Z, p.2 ^ 2) <$> units N = (λ i, i * i) <$> seqZ 0 N.
Proof.
  trans ((λ a, a ^ 2) <$> (units N).*2).
  - by rewrite <-list_fmap_compose.
  - rewrite units_snd. unfold range. apply list_fmap_ext. intros _ a _. lia.
Qed.

Lemma squares_range_eq N :
  (λ a, a ^ 2) <$> range N = (λ i, i * i) <$> seqZ 0 N.
Proof. unfold range. apply list_fmap_ext. intros _ a _. lia. Qed.

Lemma squares_of_futures N fs :
  fs ≡ₚ finished <$> units N →
  result <$> fs ≡ₚ (λ i, i * i) <$> seqZ 0 N.
Proof. intros ->. by rewrite result_finished, squares_units_eq. Qed.

(** The same, for use: the list is a rearrangement of the squares. *)
Lemma concurrent_spec sch N w :
  ∃ y w',
    concurrent sch N w = Some (y, w') ∧
    y ≡ₚ (λ i, i * i) <$> seqZ 0 N ∧
    clock w' = clock w + (if decide (0 < N) then 200 else 0) ∧
    bar w' = mkBar (Z.max 0 N) N ∧
    shown w'
    = shown w ++ (clock w, mkBar 0 N)
              :: ticks (clock w + 200) 0 (mkBar 0 N) (Z.to_nat N) ∧
    done w' = [] ∧ queue w' = fresh_queue w ∧
    (ready w = [] → scheduled w = [] → ready w' = [] ∧ scheduled w' = []).
Proof.
  destruct (concurrent_general sch N w)
    as (fs & w' & Hfs & _ & Hrun & Hc & Hb & Hsh & Hd & Hq & Hidle).
  assert (length fs = Z.to_nat N) as Hlen.
  { by rewrite (Permutation_length Hfs), length_fmap, units_length. }
  rewrite Hlen in *.
  exists (result <$> fs), w'. split_and!; try done.
  - by apply squares_of_futures.
  - rewrite Hb. f_equal. lia.
Qed.

(* ================================================================== *)
(** ** Squares as lists and as multisets *)


Lemma squares_NoDup N : NoDup ((λ i, i * i) <$> seqZ 0 N).
Proof.
  apply NoDup_fmap_2_strong; [|apply NoDup_seqZ].
  intros i j [Hi _]%elem_of_seqZ [Hj _]%elem_of_seqZ Hsq. nia.
Qed.

Lemma multiplicity_NoDup (l : list Z) x :
  NoDup l → x ∈ l → multiplicity x (list_to_set_disj l : gmultiset Z) = 1%nat.
Proof.
  induction 1 as [|y l Hy Hnd IH]; intros Hin; [by apply elem_of_nil in Hin|].
  rewrite list_to_set_disj_cons, multiplicity_disj_union.
  destruct (decide (x = y)) as [->|Hne].
  - rewrite multiplicity_singleton_eq.
    assert (multiplicity y (list_to_set_disj l : gmultiset Z) = 0%nat) as ->; [|done].
    apply not_elem_of_multiplicity. by rewrite elem_of_list_to_set_disj.
  - rewrite multiplicity_singleton_ne by done.
    apply elem_of_cons in Hin as [?|Hin]; [done|]. by rewrite IH.
Qed.

Lemma squares_lookup N (i : Z) :
  0 ≤ i < N → ((λ a, a ^ 2) <$> range N) !! Z.to_nat i = Some (i * i).
Proof.
  intros Hi. rewrite list_lookup_fmap, range_lookup by lia.
  cbn. f_equal. rewrite Z2Nat.id by lia. lia.
Qed.



Lemma sqrt_squares N : Z.sqrt <$> ((λ i, i * i) <$> seqZ 0 N) = seqZ 0 N.
Proof.
  rewrite <-list_fmap_compose. rewrite <-(list_fmap_id (seqZ 0 N)) at 2.
  apply list_fmap_ext. intros k i Hi. cbn.
  apply lookup_seqZ in Hi as [-> _]. apply Z.sqrt_square. lia.
Qed.

Lemma world_ext w w' :
  clock w = clock w' → bar w = bar w' → shown w = shown w' →
  ready w = ready w' → scheduled w = scheduled w' → done w = done w' →
  queue w = queue w' → w = w'.
Proof. destruct w, w'; cbn. by intros -> -> -> -> -> -> ->. Qed.

(* ================================================================== *)
(** ** Time on the ideal clock *)

(** On the clock of the embedding, where only delays take time, the
    sequential runner takes the sum of its delays. *)
Lemma ideal_time_sequential N w :
  N ≤ sys_maxsize →
  ∃ x w', sequential N w = Some (x, w') ∧
          clock w' = clock w + 200 * Z.max 0 N.
Proof.
  intros HN. eexists _, _. split; [by apply sequential_spec|].
  cbn. rewrite range_length. lia.
Qed.

(** The concurrent runner takes one delay, however many units there are. *)
Lemma ideal_time_concurrent sch N w :
  0 < N →
  ∃ x w', concurrent sch N w = Some (x, w') ∧ clock w' = clock w + 200.
Proof.
  intros HN. destruct (concurrent_spec sch N w) as (y & w' & -> & _ & Hc & _).
  eexists _, _. split; [done|]. by rewrite Hc, decide_True.
Qed.

(** The notebook's run: 10000 ms against 200 ms on the ideal clock. *)
Lemma ideal_time_notebook sch w :
  ∃ x2 w2 x3 w3,
    Notebook.cell2 w = Some (x2, w2) ∧ Notebook.cell3 sch w = Some (x3, w3) ∧
    clock w2 - clock w = 10000 ∧ clock w3 - clock w = 200.
Proof.
  destruct (ideal_time_sequential Notebook.N w) as (x2 & w2 & H2 & Hc2).
  { by vm_compute. }
  destruct (ideal_time_concurrent sch Notebook.N w) as (x3 & w3 & H3 & Hc3);
    [done|].
  exists x2, w2, x3, w3. repeat split; [done..| |]; unfold Notebook.N in *; lia.
Qed.

(* ================================================================== *)
(** ** The sequential runner keeps input order *)

(** C1, as the code has it.  For every N with 0 ≤ N ≤ [sys.maxsize] the
    sequential runner returns a list of length N that keeps input order:
    at every index i with 0 ≤ i < N it holds i*i. *)
Theorem sequential_in_input_order (N : Z) (w : World) :
  0 ≤ N → N ≤ sys_maxsize →
  ∃ x w', sequential N w = Some (x, w') ∧
          Z.of_nat (length x) = N ∧
          ∀ i, 0 ≤ i < N → x !! Z.to_nat i = Some (i * i).
Proof.
  intros HN Hmax. eexists _, _. split; [by apply sequential_spec|]. split.
  - rewrite length_fmap, range_length. lia.
  - apply squares_lookup.
Qed.

Lemma sequential_in_input_order_witness :
  ∃ x w', sequential 3 w0 = Some (x, w') ∧
          Z.of_nat (length x) = 3 ∧
          ∀ i, 0 ≤ i < 3 → x !! Z.to_nat i = Some (i * i).
Proof.
  apply (sequential_in_input_order 3 w0); [lia|]. unfold sys_maxsize. lia.
Defined.

(** C1 as stated, for every N ≥ 0, fails: at N = 2^63 the cell raises
    when tqdm takes [len(range(N))], and returns no list. *)
Lemma sequential_in_input_order_counterexample :
  0 ≤ 2 ^ 63 ∧ ¬ ∃ x w', sequential (2 ^ 63) w0 = Some (x, w').
Proof.
  split; [lia|]. intros (x & w' & Hrun).
  rewrite sequential_overflow in Hrun; [done|]. unfold sys_maxsize. lia.
Qed.

(* ================================================================== *)
(** ** The concurrent runner returns the same squares in some order *)

(** C2. For every N ≥ 0, whatever the loop holds and whatever order the
    runtime completes the units in, the concurrent runner returns, and its
    list, as a multiset, is {i*i : 0 ≤ i < N}; it has N entries and the
    square of each unit occurs exactly once, so the iteration over
    completed units hands over each unit once. *)
Theorem concurrent_multiset (sch : Scheduler) (N : Z) (w : World) :
  0 ≤ N →
  ∃ x w', concurrent sch N w = Some (x, w') ∧
    list_to_set_disj x
      =@{gmultiset Z} list_to_set_disj ((λ i, i * i) <$> seqZ 0 N) ∧
    Z.of_nat (length x) = N ∧
    ∀ i, 0 ≤ i < N →
         multiplicity (i * i) (list_to_set_disj x : gmultiset Z) = 1%nat.
Proof.
  intros HN. destruct (concurrent_spec sch N w) as (y & w' & -> & Hsq & _).
  exists y, w'. split; [done|].
  split; [by rewrite Hsq|]. split.
  - rewrite (Permutation_length Hsq), length_fmap, length_seqZ. lia.
  - intros i Hi. rewrite Hsq. apply multiplicity_NoDup; [apply squares_NoDup|].
    apply list_elem_of_fmap. exists i. split; [done|].
    apply elem_of_seqZ. lia.
Qed.

Lemma concurrent_multiset_witness :
  ∃ x w', concurrent jumpy 5 w_busy = Some (x, w') ∧
    list_to_set_disj x
      =@{gmultiset Z} list_to_set_disj ((λ i, i * i) <$> seqZ 0 5) ∧
    Z.of_nat (length x) = 5 ∧
    ∀ i, 0 ≤ i < 5 →
         multiplicity (i * i) (list_to_set_disj x : gmultiset Z) = 1%nat.
Proof. apply (concurrent_multiset jumpy 5 w_busy). lia. Defined.

(** The order itself is the runtime's: the same five units under three
    runtimes, and on a loop that holds other handles. *)
Example completion_order_fifo :
  fst <$> concurrent fifo 5 w0 = Some [0; 1; 4; 9; 16].
Proof. vm_compute. reflexivity. Qed.

Example completion_order_lifo :
  fst <$> concurrent lifo 5 w0 = Some [16; 9; 4; 1; 0].
Proof. vm_compute. reflexivity. Qed.

Example completion_order_jumpy :
  fst <$> concurrent jumpy 5 w0 = Some [9; 16; 0; 1; 4].
Proof. vm_compute. reflexivity. Qed.

Example completion_order_busy :
  fst <$> concurrent lifo 5 w_busy = Some [16; 9; 4; 1; 0].
Proof. vm_compute. reflexivity. Qed.

(** What is not the program's stays on the loop: the timer due after 5 s
    is still armed when the run ends. *)
Example foreign_timer_stays :
  scheduled <$> (snd <$> concurrent fifo 5 w_busy)
  = Some [(6000, mkTask 9 (Some 4%nat) (Return 3))].
Proof. vm_compute. reflexivity. Qed.

(* ================================================================== *)
(** ** One workload, two ways of waiting *)

(** A lone [afoo(a)] on an otherwise empty loop, watched through the
    current queue: the awaiting caller gets [a**2] 200 ms later, and the
    loop is empty again. *)
Lemma lone_task sch a w :
  await_one sch
    (set_ready [mkTask 0 (Some (queue w)) (afoo a)]
               (set_scheduled [] (set_done [] w)))
  = Some (a ^ 2, mkWorld (clock w + 200) (bar w) (shown w) [] [] [] (queue w)).
Proof.
  set (W := set_ready _ _).
  destruct (await_launched sch W [(0%nat, a)])
    as (fs & wC & Hfs & _ & -> & HdC & HcC & HbC & HshC & HqC & HrC & HsC & HoC);
    [done| |done|done|].
  { subst W. cbn [queue ready set_ready set_scheduled set_done fmap list_fmap].
    by rewrite filter_cons_True, filter_nil. }
  apply Permutation_singleton_r in Hfs. rewrite Hfs in HdC.
  rewrite (wait_for_one_ready _ _ _ (finished (0%nat, a)) []) by done.
  cbn [result finished snd]. do 2 f_equal.
  assert (own wC) as [HoR HoS].
  { apply HoC. subst W. unfold own.
    cbn [queue ready scheduled set_ready set_scheduled set_done].
    split; by repeat constructor. }
  rewrite HqC in HoR, HoS.
  rewrite (filter_all _ _ HoR) in HrC. rewrite (filter_all _ _ HoS) in HsC.
  apply world_ext; cbn [clock bar shown ready scheduled done queue set_done];
    done.
Qed.

(** C4. [foo] and [afoo] compute the same value for every integer [a], the
    square of [a].  They differ in the delay only: [foo] blocks, the clock
    moves inside the call; [afoo] suspends at [await asyncio.sleep], and
    the event loop hands its value over after the same 200 ms. *)
Theorem workloads_compute_same_value (a : Z) (sch : Scheduler) (w : World) :
  foo a w = Some (a * a, set_clock (clock w + 200) w) ∧
  afoo a = AwaitSleep 200 (Return (a * a)) ∧
  returned (afoo a) = a * a ∧
  await_one sch
    (set_ready [mkTask 0 (Some (queue w)) (afoo a)]
               (set_scheduled [] (set_done [] w)))
  = Some (a * a,
          mkWorld (clock w + 200) (bar w) (shown w) [] [] [] (queue w)).
Proof.
  assert (a ^ 2 = a * a) as Hsq by lia.
  rewrite lone_task, foo_spec. unfold afoo. cbn [returned].
  by rewrite Hsq.
Qed.

(* ================================================================== *)
(** ** Empty workloads *)

(** C5, as the code has it.  With N = 0 both runners return the empty
    list at once, the clock has not moved, and the counter stands at 0
    with total 0; with that total the bar draws the bare count, not
    "0 of 0". *)
Theorem zero_units (sch : Scheduler) (w : World) :
  ∃ w2 w3,
    sequential 0 w = Some ([], w2) ∧ concurrent sch 0 w = Some ([], w3) ∧
    clock w2 = clock w ∧ clock w3 = clock w ∧
    bar w2 = mkBar 0 0 ∧ bar w3 = mkBar 0 0 ∧
    shown w2 = shown w ++ [(clock w, mkBar 0 0)] ∧
    shown w3 = shown w ++ [(clock w, mkBar 0 0)] ∧
    render (bar w2) = Count 0 ∧ render (bar w3) = Count 0.
Proof.
  destruct (concurrent_spec sch 0 w)
    as (y & w3 & Hrun & Hy & Hc & Hb & Hsh & _).
  apply Permutation_nil_r in Hy as ->.
  rewrite sequential_spec by (by vm_compute).
  rewrite (range_nonpos 0) by lia.
  eexists _, w3. split; [done|]. split; [done|].
  rewrite Hb, Hc, Hsh, decide_False by lia.
  cbn [fmap list_fmap length advanced set_bar ticks clock bar shown n total].
  rewrite app_nil_r. split_and!; try done; lia.
Qed.

(** C5 as stated fails: at N = 0 the indicator does not report 0 of 0. *)
Lemma zero_units_counterexample :
  ∃ w2 w3,
    sequential 0 w0 = Some ([], w2) ∧ concurrent fifo 0 w0 = Some ([], w3) ∧
    render (bar w2) ≠ Fraction 0 0 ∧ render (bar w3) ≠ Fraction 0 0.
Proof. eexists _, _. split_and!; [by vm_compute..|done|done]. Qed.



(* ================================================================== *)
(** ** The progress bar *)




(* ================================================================== *)
(** ** Running again *)



(* ================================================================== *)
(** ** The input range *)

(** C8. The count is fixed at 50 and the input range is the integers from
    0 up to but not including 50, in increasing order.  Both cells work
    through all of it: cell 2 returns the square of each of the fifty
    inputs at its position, taking fifty delays over it; cell 3 returns
    the same fifty squares in some order. *)
Theorem input_range_of_notebook :
  let inputs :=
    [ 0;  1;  2;  3;  4;  5;  6;  7;  8;  9;
     10; 11; 12; 13; 14; 15; 16; 17; 18; 19;
     20; 21; 22; 23; 24; 25; 26; 27; 28; 29;
     30; 31; 32; 33; 34; 35; 36; 37; 38; 39;
     40; 41; 42; 43; 44; 45; 46; 47; 48; 49] in
  Notebook.N = 50 ∧
  range Notebook.N = inputs ∧
  (∀ stop i v, range stop !! i = Some v ↔ v = Z.of_nat i ∧ Z.of_nat i < stop) ∧
  (∀ w, ∃ x w',
      Notebook.cell2 w = Some (x, w') ∧
      x = (λ a, a * a) <$> inputs ∧
      clock w' = clock w + 50 * 200 ∧ bar w' = mkBar 50 50) ∧
  (∀ sch w, ∃ y w',
      Notebook.cell3 sch w = Some (y, w') ∧
      y ≡ₚ (λ a, a * a) <$> inputs ∧
      Z.sqrt <$> y ≡ₚ inputs ∧ bar w' = mkBar 50 50).
Proof.
  intros inputs.
  assert (range Notebook.N = inputs) as Hrange by (by vm_compute).
  assert (seqZ 0 Notebook.N = inputs) as Hseq by exact Hrange.
  split; [done|]. split; [done|]. split; [|split].
  - intros stop i v. unfold range. rewrite lookup_seqZ. by rewrite Z.add_0_l.
  - intros w. unfold Notebook.cell2.
    rewrite sequential_spec by (by vm_compute).
    eexists _, _. split; [done|]. rewrite squares_range_eq, Hseq.
    split; [done|]. rewrite Hrange. done.
  - intros sch w. unfold Notebook.cell3.
    destruct (concurrent_spec sch Notebook.N w)
      as (y & w' & -> & Hy & _ & Hb & _).
    exists y, w'. split; [done|]. rewrite Hseq in Hy.
    split; [done|]. split; [|done].
    by rewrite Hy, <-Hseq, sqrt_squares.
Qed.

(* ================================================================== *)
(** ** Exact squares *)

(** C10. The square is computed on unbounded integers: for every a ≥ 0
    both workloads return exactly a*a, which is never below a and is not
    cut down to any word size. *)
Theorem squaring_is_exact (a : Z) (w : World) :
  0 ≤ a →
  fst <$> foo a w = Some (a * a) ∧
  returned (afoo a) = a * a ∧
  a ≤ returned (afoo a) ∧
  ∀ bits, 0 ≤ bits → 2 ^ bits ≤ a →
          2 ^ bits ≤ returned (afoo a) ∧
          returned (afoo a) `mod` 2 ^ bits ≠ returned (afoo a).
Proof.
  intros Ha. assert (a ^ 2 = a * a) as Hsq by lia.
  rewrite foo_spec. cbn [returned afoo fmap option_fmap option_map fst].
  rewrite Hsq. split; [done|]. split; [done|]. split; [nia|].
  intros bits Hb Hle.
  assert (0 < 2 ^ bits) by (by apply Z.pow_pos_nonneg).
  split; [nia|].
  pose proof (Z.mod_pos_bound (a * a) (2 ^ bits)). nia.
Qed.

Lemma squaring_is_exact_witness :
  fst <$> foo (2 ^ 64) w0 = Some (2 ^ 64 * 2 ^ 64) ∧
  returned (afoo (2 ^ 64)) = 2 ^ 64 * 2 ^ 64 ∧
  2 ^ 64 ≤ returned (afoo (2 ^ 64)) ∧
  ∀ bits, 0 ≤ bits → 2 ^ bits ≤ 2 ^ 64 →
          2 ^ bits ≤ returned (afoo (2 ^ 64)) ∧
          returned (afoo (2 ^ 64)) `mod` 2 ^ bits ≠ returned (afoo (2 ^ 64)).
Proof. apply (squaring_is_exact (2 ^ 64) w0). lia. Defined.

(* ================================================================== *)
(** ** The two runners side by side *)







(* ================================================================== *)
(** ** Delays in a row and delays side by side *)

(** On the clock that only the two sleeps move, and for any count N with
    0 < N ≤ [sys.maxsize]: the sequential runner ends 200 * N ms after it
    started, one delay per unit; the concurrent runner ends 200 ms after
    it started, whatever N is; so the first takes N times as long as the
    second. *)
Theorem delays_add_up_or_overlap (sch : Scheduler) (N : Z) (w : World) :
  0 < N → N ≤ sys_maxsize →
  ∃ x w2 y w3,
    sequential N w = Some (x, w2) ∧ concurrent sch N w = Some (y, w3) ∧
    clock w2 - clock w = 200 * N ∧
    clock w3 - clock w = 200 ∧
    clock w2 - clock w = N * (clock w3 - clock w).
Proof.
  intros HN Hmax.
  destruct (ideal_time_sequential N w Hmax) as (x & w2 & Hx & Hc2).
  destruct (ideal_time_concurrent sch N w HN) as (y & w3 & Hy & Hc3).
  exists x, w2, y, w3. repeat split; [done..| | |]; lia.
Qed.

Lemma delays_add_up_or_overlap_witness :
  ∃ x w2 y w3,
    sequential 7 w0 = Some (x, w2) ∧ concurrent lifo 7 w0 = Some (y, w3) ∧
    clock w2 - clock w0 = 200 * 7 ∧
    clock w3 - clock w0 = 200 ∧
    clock w2 - clock w0 = 7 * (clock w3 - clock w0).
Proof.
  apply (delays_add_up_or_overlap lifo 7 w0); [lia|]. unfold sys_maxsize. lia.
Defined.

(* ================================================================== *)
(** ** What the concurrent runner leaves on the event loop *)





(* ================================================================== *)
(** ** The totals of the two bars *)



(* ================================================================== *)
(** ** The notebook from top to bottom *)

(** Cell 3 run after cell 2, on the world cell 2 leaves, for a count N
    with 0 ≤ N ≤ [sys.maxsize]: the run returns; the [x] it ends with is a
    rearrangement of the squares; the time taken is that of both cells,
    200 * N ms and then one more delay if there is any unit; the bar of
    cell 2 has counted from 0 to N one delay apart, then the bar of cell 3
    from 0 to N at the end of its one delay. *)
Theorem cells_in_order (sch : Scheduler) (N : Z) (w : World) :
  0 ≤ N → N ≤ sys_maxsize →
  ∃ y w',
    (sequential N ≫= λ _, concurrent sch N) w = Some (y, w') ∧
    y ≡ₚ (λ i, i * i) <$> seqZ 0 N ∧
    clock w' - clock w = 200 * N + (if decide (0 < N) then 200 else 0) ∧
    shown w' = shown w ++ counting (clock w) 200 N
                       ++ counting_at_once (clock w + 200 * N) N ∧
    bar w' = mkBar N N.
Proof.
  intros HN Hmax.
  set (w1 := advanced (length (range N)) 200
                      (set_bar (mkBar 0 (Z.max 0 N)) w)).
  destruct (concurrent_spec sch N w1)
    as (y & w' & Hrun & Hy & Hc & Hb & Hsh & _).
  rewrite (Py_bind_Some _ _ _ _ _ (sequential_spec N w Hmax)). fold w1.
  exists y, w'. split; [done|]. split; [done|].
  rewrite Hc, Hb, Hsh. subst w1.
  cbn [clock bar shown advanced set_bar n total].
  rewrite range_length. replace (Z.max 0 N) with N by lia.
  rewrite Z2Nat.id by lia. split_and!; [lia| |done].
  rewrite <-!app_assoc. cbn [app]. f_equal.
  rewrite app_comm_cons, (counting_ticks _ _ N) by lia. f_equal.
  apply counting_at_once_ticks. lia.
Qed.

Lemma cells_in_order_witness :
  ∃ y w',
    (sequential 4 ≫= λ _, concurrent jumpy 4) w_busy = Some (y, w') ∧
    y ≡ₚ (λ i, i * i) <$> seqZ 0 4 ∧
    clock w' - clock w_busy = 200 * 4 + (if decide (0 < 4) then 200 else 0) ∧
    shown w' = shown w_busy ++ counting (clock w_busy) 200 4
                            ++ counting_at_once (clock w_busy + 200 * 4) 4 ∧
    bar w' = mkBar 4 4.
Proof.
  apply (cells_in_order jumpy 4 w_busy); [lia|]. unfold sys_maxsize. lia.
Defined.
